(** * Click Pop: geometry and slot-pool core

    Shallow embedding of [click_pop_core.py] (display hit-testing,
    coordinate mapping, slot allocation, expiry) and of the click router
    [_spawn_circle] of [obs_click_pop.py].

    Numbers the Python code treats as floats are modelled as rationals
    ([Q]), evaluated with the same operations in the same order; a Python
    division by zero ([ZeroDivisionError]) is modelled as [None]. *)

From Stdlib Require Import QArith Qround Ascii String List Bool Lia Lqa Decimal.
Import ListNotations.
Open Scope string_scope.

(* ------------------------------------------------------------------ *)
(** ** Decimal rendering of an index, as in [f"{prefix}{i}"] *)

Fixpoint uint_to_string (u : Decimal.uint) : string :=
  match u with
  | Decimal.Nil => EmptyString
  | Decimal.D0 u' => String "0"%char (uint_to_string u')
  | Decimal.D1 u' => String "1"%char (uint_to_string u')
  | Decimal.D2 u' => String "2"%char (uint_to_string u')
  | Decimal.D3 u' => String "3"%char (uint_to_string u')
  | Decimal.D4 u' => String "4"%char (uint_to_string u')
  | Decimal.D5 u' => String "5"%char (uint_to_string u')
  | Decimal.D6 u' => String "6"%char (uint_to_string u')
  | Decimal.D7 u' => String "7"%char (uint_to_string u')
  | Decimal.D8 u' => String "8"%char (uint_to_string u')
  | Decimal.D9 u' => String "9"%char (uint_to_string u')
  end.

Definition nat_to_string (n : nat) : string := uint_to_string (Nat.to_uint n).

(** [f"{prefix}{i}"] *)
Definition slot_name (prefix : string) (i : nat) : string :=
  prefix ++ nat_to_string i.

(* ------------------------------------------------------------------ *)
(** ** find_display_for_point *)

(** A display descriptor: a dict with keys [x], [y], [w], [h] and, where
    the platform provides it, [retina_scale] (read with default 1.0). *)
Record display := mkDisplay {
  d_x : Q; d_y : Q; d_w : Q; d_h : Q;
  d_retina_scale : option Q
}.

(** [d["x"] <= x < d["x"] + d["w"] and d["y"] <= y < d["y"] + d["h"]] *)
Definition contains (d : display) (x y : Q) : bool :=
  Qle_bool (d_x d) x && negb (Qle_bool (d_x d + d_w d) x) &&
  Qle_bool (d_y d) y && negb (Qle_bool (d_y d + d_h d) y).

(** The display dicts are Python objects and the router compares them by
    identity ([display is not _captured_display]); a reference to a
    display dict is modelled as its object identity next to its contents. *)
Definition dref := (nat * display)%type.

(** [for d in displays: if ...: return d] / [return None] *)
Fixpoint find_display_for_point (x y : Q) (displays : list dref)
  : option dref :=
  match displays with
  | [] => None
  | d :: rest =>
      if contains (snd d) x y then Some d
      else find_display_for_point x y rest
  end.

(* ------------------------------------------------------------------ *)
(** ** map_coords *)

(** Python's [a / b]: raises [ZeroDivisionError] when [b == 0]. *)
Definition py_div (a b : Q) : option Q :=
  if Qeq_bool b 0 then None else Some (a / b).

(** Keyword arguments of [map_coords]; [None] scales mean the default
    [capture_scale_x=None] / [capture_scale_y=None]. *)
Record capture_kwargs := mkKwargs {
  crop_left : Q; crop_top : Q;
  capture_pos_x : Q; capture_pos_y : Q;
  capture_scale_x : option Q; capture_scale_y : option Q
}.

Definition default_kwargs : capture_kwargs :=
  mkKwargs 0 0 0 0 None None.

Definition map_coords (x y canvas_w canvas_h monitor_w monitor_h circle_size : Q)
    (kw : capture_kwargs) : option (Q * Q) :=
  let sx := match capture_scale_x kw with
            | None => py_div canvas_w monitor_w
            | Some s => Some s
            end in
  match sx with
  | None => None
  | Some scale_x =>
    let sy := match capture_scale_y kw with
              | None => py_div canvas_h monitor_h
              | Some s => Some s
              end in
    match sy with
    | None => None
    | Some scale_y =>
      let cropped_x := x - crop_left kw in
      let cropped_y := y - crop_top kw in
      let obs_x := capture_pos_x kw + cropped_x * scale_x - circle_size / 2 in
      let obs_y := capture_pos_y kw + cropped_y * scale_y - circle_size / 2 in
      Some (obs_x, obs_y)
    end
  end.

(* ------------------------------------------------------------------ *)
(** ** allocate_slot *)

(** An entry of [_active_clicks]: [(source_name, expire_time)]. *)
Definition entry := (string * Q)%type.

Definition in_use (candidate : string) (active_clicks : list entry) : bool :=
  existsb (fun e => String.eqb (fst e) candidate) active_clicks.

(** [for i in range(max_circles): ...]; scanning from index [i] with
    [fuel] indices left. *)
Fixpoint find_free (prefix : string) (i fuel : nat) (active_clicks : list entry)
  : option string :=
  match fuel with
  | O => None
  | S fuel' =>
      let candidate := slot_name prefix i in
      if negb (in_use candidate active_clicks) then Some candidate
      else find_free prefix (S i) fuel' active_clicks
  end.

(** [for i, (n, _) in enumerate(active_clicks): if n.startswith(prefix):
    active_clicks.pop(i); return (n, n)]: the first matching entry, and
    the list without it. *)
Fixpoint pop_first_prefixed (prefix : string) (active_clicks : list entry)
  : option (string * list entry) :=
  match active_clicks with
  | [] => None
  | (n, t) :: rest =>
      if String.prefix prefix n then Some (n, rest)
      else match pop_first_prefixed prefix rest with
           | None => None
           | Some (m, rest') => Some (m, (n, t) :: rest')
           end
  end.

(** The list argument is mutated in place; the embedding returns the
    list as it is after the call, next to [(slot_name, evicted_name)]. *)
Definition allocate_slot (prefix : string) (max_circles : nat)
    (active_clicks : list entry) : string * option string * list entry :=
  match find_free prefix 0 max_circles active_clicks with
  | Some candidate => (candidate, None, active_clicks)
  | None =>
      match pop_first_prefixed prefix active_clicks with
      | Some (n, rest) => (n, Some n, rest)
      | None => (slot_name prefix 0, None, active_clicks)
      end
  end.

(* ------------------------------------------------------------------ *)
(** ** expire_circles *)

Fixpoint expire_loop (active_clicks : list entry) (now : Q)
    (still_active : list entry) (expired_names : list string)
  : list entry * list string :=
  match active_clicks with
  | [] => (still_active, expired_names)
  | (name, expire_t) :: rest =>
      if Qle_bool expire_t now
      then expire_loop rest now still_active (expired_names ++ [name])%list
      else expire_loop rest now (still_active ++ [(name, expire_t)])%list expired_names
  end.

Definition expire_circles (active_clicks : list entry) (now : Q)
  : list entry * list string :=
  expire_loop active_clicks now [] [].

(* ------------------------------------------------------------------ *)
(** ** The click router: [_spawn_circle] *)

(** Module-level state and host values read by [_spawn_circle]. *)
Record router_env := mkEnv {
  all_displays : list dref;            (* [_all_displays] *)
  captured_display : option dref;      (* [_captured_display] *)
  retina_scale : Q;                    (* [_retina_scale] *)
  monitor_w : Q; monitor_h : Q;        (* [_settings["monitor_w"/"monitor_h"]] *)
  max_circles : nat;                   (* [_settings["max_circles"]] *)
  circle_size : Q;                     (* [_settings["circle_size"]] *)
  scene_w : Q; scene_h : Q;            (* [obs_source_get_width/height(scene_src)] *)
  transform : option (Q * Q * Q * Q * Q * Q)  (* [_get_capture_transform(scene)] *)
}.

(** Requests issued to OBS: [_hide_source(name)] and
    [_show_source(name, image, x, y, size)] (the image path is left out). *)
Inductive effect :=
| Hide (name : string)
| Show (name : string) (x y size : Q).

(** Python identity test between two optional references. *)
Definition same_object (a b : option dref) : bool :=
  match a, b with
  | None, None => true
  | Some (i, _), Some (j, _) => Nat.eqb i j
  | _, _ => false
  end.

(** Outcome of the multi-monitor block at the top of [_spawn_circle]. *)
Inductive route := Discard | Proceed (display : option dref).

Definition route_click (env : router_env) (x y : Q) : route :=
  if Nat.ltb 1 (length (all_displays env)) then
    let display := find_display_for_point x y (all_displays env) in
    match captured_display env with
    | Some c =>
        if negb (same_object display (Some c)) then Discard else Proceed display
    | None => Proceed display
    end
  else Proceed None.

(** Python's [a or b] on numbers. *)
Definition py_or (a b : Q) : Q := if Qeq_bool a 0 then b else a.

Definition kwargs_of (t : option (Q * Q * Q * Q * Q * Q)) : capture_kwargs :=
  match t with
  | None => default_kwargs
  | Some (cl, ct, px, py, sx, sy) => mkKwargs cl ct px py (Some sx) (Some sy)
  end.

(** The rest of [_spawn_circle] once the click is kept.  The result is
    the requests issued and [_active_clicks] after the call; a
    [ZeroDivisionError] in [map_coords] ends the call after the slot was
    allocated (and an eviction hidden). *)
Definition place_circle (env : router_env) (active : list entry) (display : option dref)
    (x y : Q) (is_left : bool) (expire_time : Q) : list effect * list entry :=
  let '(local_x, local_y, mon_w, mon_h, retina) :=
    match display with
    | Some (_, d) =>
        (x - d_x d, y - d_y d, d_w d, d_h d,
         match d_retina_scale d with Some r => r | None => 1 end)
    | None => (x, y, monitor_w env, monitor_h env, retina_scale env)
    end in
  let prefix := if is_left then "__click_pop_L_" else "__click_pop_R_" in
  let '(src_name, evicted, active1) := allocate_slot prefix (max_circles env) active in
  let hides := match evicted with Some e => [Hide e] | None => [] end in
  let size := circle_size env in
  let canvas_w := py_or (scene_w env) (monitor_w env) in
  let canvas_h := py_or (scene_h env) (monitor_h env) in
  let phys_x := local_x * retina in
  let phys_y := local_y * retina in
  let phys_mon_w := mon_w * retina in
  let phys_mon_h := mon_h * retina in
  match map_coords phys_x phys_y canvas_w canvas_h phys_mon_w phys_mon_h size
          (kwargs_of (transform env)) with
  | None => (hides, active1)
  | Some (obs_x, obs_y) =>
      ((hides ++ [Show src_name obs_x obs_y size])%list, (active1 ++ [(src_name, expire_time)])%list)
  end.

Definition spawn_circle (env : router_env) (active : list entry)
    (x y : Q) (is_left : bool) (expire_time : Q) : list effect * list entry :=
  match route_click env x y with
  | Discard => ([], active)
  | Proceed display => place_circle env active display x y is_left expire_time
  end.

(* ------------------------------------------------------------------ *)
(** ** The polling tick: [_poll_clicks] *)

(** A queued click: [(x, y, is_left, t)] as pushed by the listener. *)
Definition click := (Q * Q * bool * Q)%type.

(** [while _click_queue: x, y, is_left, t = _click_queue.popleft();
    _spawn_circle(x, y, is_left, t + duration_s)] *)
Fixpoint drain_clicks (env : router_env) (duration_s : Q) (queue : list click)
    (active : list entry) : list effect * list entry :=
  match queue with
  | [] => ([], active)
  | (x, y, is_left, t) :: rest =>
      let '(eff1, active1) := spawn_circle env active x y is_left (t + duration_s) in
      let '(eff2, active2) := drain_clicks env duration_s rest active1 in
      ((eff1 ++ eff2)%list, active2)
  end.

(** Drain the queue, then expire: hide every expired name and replace
    [_active_clicks] by the entries still live. *)
Definition poll_clicks (env : router_env) (duration_ms : Q) (now : Q)
    (queue : list click) (active : list entry) : list effect * list entry :=
  let duration_s := duration_ms / 1000 in
  let '(eff, active1) := drain_clicks env duration_s queue active in
  let '(still_active, expired) := expire_circles active1 now in
  ((eff ++ map Hide expired)%list, still_active).

(* ------------------------------------------------------------------ *)
(** ** Unload: [_cleanup_sources] *)


(* ------------------------------------------------------------------ *)
(** ** Capture transform: [_get_filter_crop] and [_get_capture_transform] *)

(** A filter of the capture source, read from its JSON: [id] and the
    [left]/[top]/[right]/[bottom] keys of its settings, when present. *)
Record source_filter := mkFilter {
  f_id : string;
  f_left : option Q; f_top : option Q; f_right : option Q; f_bottom : option Q
}.

Definition get_or_zero (v : option Q) : Q :=
  match v with Some q => q | None => 0 end.

(** The first ["crop_filter"] wins; [(0, 0, 0, 0)] when there is none. *)
Fixpoint get_filter_crop (filters : list source_filter) : Q * Q * Q * Q :=
  match filters with
  | [] => (0, 0, 0, 0)
  | f :: rest =>
      if String.eqb (f_id f) "crop_filter"
      then (get_or_zero (f_left f), get_or_zero (f_top f),
            get_or_zero (f_right f), get_or_zero (f_bottom f))
      else get_filter_crop rest
  end.

Inductive bounds_type :=
| OBS_BOUNDS_NONE | OBS_BOUNDS_STRETCH | OBS_BOUNDS_SCALE_INNER
| OBS_BOUNDS_SCALE_OUTER | OBS_BOUNDS_SCALE_TO_WIDTH
| OBS_BOUNDS_SCALE_TO_HEIGHT | OBS_BOUNDS_MAX_ONLY.

(** What [_get_capture_transform] reads from OBS about the scene item of
    the configured capture source. *)
Record capture_item := mkItem {
  cut_left : Q; cut_top : Q; cut_right : Q; cut_bottom : Q;  (* source settings *)
  item_crop_left : Q; item_crop_top : Q;
  item_crop_right : Q; item_crop_bottom : Q;                 (* obs_sceneitem_get_crop *)
  filters : list source_filter;                              (* for _get_filter_crop *)
  item_pos_x : Q; item_pos_y : Q;                            (* obs_sceneitem_get_pos *)
  item_bounds_type : bounds_type;
  item_bounds_x : Q; item_bounds_y : Q;                      (* obs_sceneitem_get_bounds *)
  source_width : Q; source_height : Q;                       (* obs_source_get_width/height *)
  item_scale_x : Q; item_scale_y : Q                         (* obs_sceneitem_get_scale *)
}.

(** A Python call either returns or raises [ZeroDivisionError]. *)
Inductive outcome (A : Type) := Returned (a : A) | Raised_ZeroDivisionError.
Arguments Returned {A} a.
Arguments Raised_ZeroDivisionError {A}.

Definition py_min (a b : Q) : Q := if Qle_bool a b then a else b.
Definition py_max (a b : Q) : Q := if Qle_bool b a then a else b.

(** The sizes OBS scales: [max(src - crop_a - crop_b, 1)] with
    [src = obs_source_get_width(source) or 1]. *)
Definition vis_w (it : capture_item) : Q :=
  py_max (py_or (source_width it) 1 - item_crop_left it - item_crop_right it) 1.
Definition vis_h (it : capture_item) : Q :=
  py_max (py_or (source_height it) 1 - item_crop_top it - item_crop_bottom it) 1.

(** [(scale_x, scale_y, offset_x, offset_y)] for an item with bounds. *)
Definition bounds_scale (it : capture_item) : outcome (Q * Q * Q * Q) :=
  let bx := item_bounds_x it in
  let by_ := item_bounds_y it in
  let vw := vis_w it in
  let vh := vis_h it in
  let with_offsets (s : option (Q * Q)) :=
    match s with
    | None => Raised_ZeroDivisionError
    | Some (sx, sy) => Returned (sx, sy, (bx - vw * sx) / 2, (by_ - vh * sy) / 2)
    end in
  let both (a b : option Q) :=
    match a, b with Some x, Some y => Some (x, y) | _, _ => None end in
  let uniform (a : option Q) := both a a in
  with_offsets
    match item_bounds_type it with
    | OBS_BOUNDS_STRETCH => both (py_div bx vw) (py_div by_ vh)
    | OBS_BOUNDS_SCALE_INNER =>
        uniform (match py_div bx vw, py_div by_ vh with
                 | Some a, Some b => Some (py_min a b) | _, _ => None end)
    | OBS_BOUNDS_SCALE_OUTER =>
        uniform (match py_div bx vw, py_div by_ vh with
                 | Some a, Some b => Some (py_max a b) | _, _ => None end)
    | OBS_BOUNDS_SCALE_TO_WIDTH => uniform (py_div bx vw)
    | OBS_BOUNDS_SCALE_TO_HEIGHT => uniform (py_div by_ vh)
    | _ => both (py_div bx vw) (py_div by_ vh)
    end.

Definition transform_t := (Q * Q * Q * Q * Q * Q)%type.

(** [_get_capture_transform(scene)]: [None] when no capture source name
    is configured or the scene has no item for it. *)
Definition get_capture_transform (name : string) (item : option capture_item)
  : outcome (option transform_t) :=
  if String.eqb name "" then Returned None else
  match item with
  | None => Returned None
  | Some it =>
      let '(flt_left, flt_top, _, _) := get_filter_crop (filters it) in
      let crop_l := cut_left it + item_crop_left it + flt_left in
      let crop_t := cut_top it + item_crop_top it + flt_top in
      let scaled :=
        match item_bounds_type it with
        | OBS_BOUNDS_NONE => Returned (item_scale_x it, item_scale_y it, 0, 0)
        | _ => bounds_scale it
        end in
      match scaled with
      | Raised_ZeroDivisionError => Raised_ZeroDivisionError
      | Returned (sx, sy, ox, oy) =>
          Returned (Some (crop_l, crop_t, item_pos_x it + ox, item_pos_y it + oy, sx, sy))
      end
  end.

(* ------------------------------------------------------------------ *)
(** ** [_resolve_captured_display] *)

Inductive platform := Darwin | Win32 | OtherPlatform.

(** ASCII [str.upper()] and [str.strip("{}")]. *)
Definition ascii_upper (c : ascii) : ascii :=
  let n := nat_of_ascii c in
  if (Nat.leb 97 n && Nat.leb n 122)%bool then ascii_of_nat (n - 32) else c.

Fixpoint upper (s : string) : string :=
  match s with
  | EmptyString => EmptyString
  | String c rest => String (ascii_upper c) (upper rest)
  end.

Definition is_brace (c : ascii) : bool :=
  (Ascii.eqb c "{"%char || Ascii.eqb c "}"%char)%bool.

Fixpoint lstrip_braces (s : string) : string :=
  match s with
  | String c rest => if is_brace c then lstrip_braces rest else s
  | EmptyString => EmptyString
  end.

Fixpoint rev_string (s : string) : string :=
  match s with
  | EmptyString => EmptyString
  | String c rest => rev_string rest ++ String c EmptyString
  end.

Definition strip_braces (s : string) : string :=
  rev_string (lstrip_braces (rev_string (lstrip_braces s))).

(** Python's [int(q)]: truncation toward zero. *)
Definition py_int (q : Q) : Z :=
  if Qle_bool 0 q then Qfloor q else (- Qfloor (- q))%Z.

(** Settings of the capture source read by [_resolve_captured_display]. *)
Record capture_source := mkSource {
  src_id : string;                (* obs_source_get_unversioned_id *)
  set_display : Z;                (* obs_data_get_int(settings, "display") *)
  set_display_uuid : string;      (* obs_data_get_string(settings, "display_uuid") *)
  set_monitor : Z;                (* "monitor" *)
  set_screen : Z;                 (* "screen" *)
  out_width : Z; out_height : Z   (* obs_source_get_width/height(source) *)
}.

(** The result of [_display_uuid_via_ctypes(d["id"])]. *)
Inductive uuid_result := UuidOk (s : string) | UuidNone | UuidRaises.

(** [0 <= idx < len(_all_displays)] then [_all_displays[idx]]. *)
Definition pick_index (displays : list dref) (idx : Z) : option dref :=
  if (Z.leb 0 idx && Z.ltb idx (Z.of_nat (length displays)))%bool
  then nth_error displays (Z.to_nat idx) else None.

Section Resolve.

(** [d["id"]] of a display dict (the platform display identifier) and
    the macOS UUID lookup, both external to the model. *)
Variable display_id : dref -> Z.
Variable uuid_of : dref -> uuid_result.

(** Step 1: the first display whose UUID matches; a raising lookup ends
    the loop (the [except] around it). *)
Fixpoint match_uuid (norm_uuid : string) (ds : list dref) : option dref :=
  match ds with
  | [] => None
  | d :: rest =>
      match uuid_of d with
      | UuidRaises => None
      | UuidOk u =>
          if String.eqb (upper (strip_braces u)) norm_uuid then Some d
          else match_uuid norm_uuid rest
      | UuidNone => match_uuid norm_uuid rest
      end
  end.

Definition retina_of (d : display) : Q :=
  match d_retina_scale d with Some r => r | None => 1 end.

Definition resolve_screen_capture (ds : list dref) (src : capture_source) : option dref :=
  let uuid := set_display_uuid src in
  let by_uuid :=
    if String.eqb uuid "" then None
    else match_uuid (upper (strip_braces uuid)) ds in
  match by_uuid with
  | Some d => Some d
  | None =>
    let by_id :=
      if Z.eqb (set_display src) 0 then None
      else find (fun d => Z.eqb (display_id d) (set_display src)) ds in
    match by_id with
    | Some d => Some d
    | None =>
        if (negb (Z.eqb (out_width src) 0) && negb (Z.eqb (out_height src) 0))%bool
        then find (fun d =>
               Z.eqb (py_int (d_w (snd d) * retina_of (snd d))) (out_width src) &&
               Z.eqb (py_int (d_h (snd d) * retina_of (snd d))) (out_height src)) ds
        else None
    end
  end.

(** [_resolve_captured_display()]: the new [_captured_display]. *)
Definition resolve_captured_display (plat : platform) (name : string)
    (ds : list dref) (source : option capture_source) : option dref :=
  if (String.eqb name "" || Nat.eqb (length ds) 0)%bool then None else
  match source with
  | None => None
  | Some src =>
      match plat with
      | Darwin =>
          if String.prefix "screen_capture" (src_id src)
          then resolve_screen_capture ds src
          else if String.prefix "display_capture" (src_id src)
          then pick_index ds (set_display src)
          else None
      | Win32 => pick_index ds (set_monitor src)
      | OtherPlatform => pick_index ds (set_screen src)
      end
  end.

End Resolve.

(* ================================================================== *)
(** * Properties *)

(** ** Slot pool: scanning and eviction helpers *)

Lemma prefix_app (p s : string) : String.prefix p (p ++ s) = true.
Proof.
  induction p as [|a p IH]; simpl.
  - destruct s; reflexivity.
  - destruct (ascii_dec a a) as [_|n]; [exact IH | contradiction].
Qed.

Section SlotPool.
Local Open Scope nat_scope.
Local Open Scope list_scope.

Variable prefix : string.

Lemma slot_name_prefixed (i : nat) : String.prefix prefix (slot_name prefix i) = true.
Proof. apply prefix_app. Qed.

Lemma find_free_all_used (l : list entry) (fuel i : nat) :
  (forall k, i <= k < i + fuel -> in_use (slot_name prefix k) l = true) ->
  find_free prefix i fuel l = None.
Proof.
  revert i; induction fuel as [|fuel IH]; intros i Hused; simpl; [reflexivity|].
  rewrite (Hused i) by lia; simpl.
  apply IH; intros k Hk; apply Hused; lia.
Qed.

Lemma find_free_first (l : list entry) (fuel i j : nat) :
  i <= j < i + fuel ->
  in_use (slot_name prefix j) l = false ->
  (forall k, i <= k < j -> in_use (slot_name prefix k) l = true) ->
  find_free prefix i fuel l = Some (slot_name prefix j).
Proof.
  revert i; induction fuel as [|fuel IH]; intros i Hj Hfree Hused; [lia|].
  simpl. destruct (PeanoNat.Nat.eq_dec i j) as [<-|Hne].
  - rewrite Hfree; reflexivity.
  - rewrite (Hused i) by lia; simpl.
    apply IH; [lia | exact Hfree | intros k Hk; apply Hused; lia].
Qed.

Definition unprefixed (e : entry) : Prop := String.prefix prefix (fst e) = false.

Lemma pop_first_prefixed_split (l1 l2 : list entry) (n : string) (t : Q) :
  Forall unprefixed l1 ->
  String.prefix prefix n = true ->
  pop_first_prefixed prefix (l1 ++ (n, t) :: l2) = Some (n, l1 ++ l2).
Proof.
  intros Hl1 Hn; induction Hl1 as [|[m u] l1 Hm _ IH]; simpl.
  - rewrite Hn; reflexivity.
  - unfold unprefixed in Hm; simpl in Hm; rewrite Hm, IH; reflexivity.
Qed.

Lemma pop_first_prefixed_some (l l' : list entry) (n : string) :
  pop_first_prefixed prefix l = Some (n, l') ->
  exists l1 t l2, l = l1 ++ (n, t) :: l2 /\ l' = l1 ++ l2 /\
                  String.prefix prefix n = true /\ Forall unprefixed l1.
Proof.
  revert l'; induction l as [|[m u] rest IH]; intros l' H; simpl in H;
    [discriminate|].
  destruct (String.prefix prefix m) eqn:Hm.
  - injection H as <- <-. exists [], u, rest; repeat split; auto.
  - destruct (pop_first_prefixed prefix rest) as [[k rest']|] eqn:Hp;
      [|discriminate].
    injection H as <- <-.
    destruct (IH rest' eq_refl) as (l1 & t & l2 & -> & -> & Hn & Hl1).
    exists ((m, u) :: l1), t, l2; repeat split; auto.
Qed.

Lemma pop_first_prefixed_none (l : list entry) :
  Forall unprefixed l -> pop_first_prefixed prefix l = None.
Proof.
  induction 1 as [|[m u] rest Hm _ IH]; simpl; [reflexivity|].
  unfold unprefixed in Hm; simpl in Hm; rewrite Hm, IH; reflexivity.
Qed.

(** When every slot name is taken and no entry carries the prefix, the
    pool has no slots at all: [prefix ++ "0"] itself carries the prefix. *)
Lemma inconsistent_pool_capacity (max_c : nat) (l : list entry) :
  (forall i, i < max_c -> in_use (slot_name prefix i) l = true) ->
  Forall unprefixed l ->
  max_c = 0.
Proof.
  intros Hall Hno. destruct max_c as [|c]; [reflexivity|].
  specialize (Hall 0 ltac:(lia)). unfold in_use in Hall.
  apply existsb_exists in Hall as [[m u] [Hin Heq]]. simpl in Heq.
  apply String.eqb_eq in Heq; subst m.
  rewrite Forall_forall in Hno. specialize (Hno _ Hin).
  unfold unprefixed in Hno; simpl in Hno.
  rewrite slot_name_prefixed in Hno; discriminate.
Qed.

End SlotPool.

(** ** Slot pool: claims *)

Local Open Scope list_scope.

(** C1: when all [max_c] slot names [prefix0 .. prefix(max_c-1)] are in
    use, [allocate_slot] evicts the first entry of the list whose name
    starts with [prefix]: it returns that name as both the slot name and
    the evicted name and leaves the list with exactly that entry removed,
    so entries before it (none of which carry the prefix) and after it
    all stay. *)
Theorem allocate_slot_evicts_first_prefixed
    (prefix : string) (max_c : nat) (l l1 l2 : list entry) (n : string) (t : Q) :
  (forall i, (i < max_c)%nat -> in_use (slot_name prefix i) l = true) ->
  l = l1 ++ (n, t) :: l2 ->
  String.prefix prefix n = true ->
  Forall (unprefixed prefix) l1 ->
  allocate_slot prefix max_c l = (n, Some n, l1 ++ l2).
Proof.
  intros Hall Hl Hn Hl1. unfold allocate_slot.
  rewrite find_free_all_used by (intros k Hk; apply Hall; lia).
  rewrite Hl, pop_first_prefixed_split by assumption. reflexivity.
Qed.

Lemma allocate_slot_evicts_first_prefixed_witness :
  allocate_slot "L" 2 [("R0", 1); ("L1", 2); ("R1", 3); ("L0", 4)]%Q
  = ("L1", Some "L1", [("R0", 1); ("R1", 3); ("L0", 4)]%Q).
Proof.
  apply (allocate_slot_evicts_first_prefixed "L" 2 _ [("R0", 1)%Q]
           [("R1", 3); ("L0", 4)]%Q "L1" 2%Q).
  - intros i Hi. destruct i as [|[|i]]; [reflexivity | reflexivity | lia].
  - reflexivity.
  - reflexivity.
  - repeat constructor.
Defined.

(** The spec's example: capacity 5 filled in the order 0..4; the next
    allocation evicts and returns slot 0, and the call after it (slot 0
    now free) hands out slot 0 again without eviction. *)
Example allocate_slot_fifo_example :
  let l := [("P0", 1); ("P1", 2); ("P2", 3); ("P3", 4); ("P4", 5)]%Q in
  allocate_slot "P" 5 l = ("P0", Some "P0", tl l) /\
  allocate_slot "P" 5 (tl l) = ("P0", None, tl l).
Proof. split; reflexivity. Qed.

(** C5: when some index below [max_c] is free, [allocate_slot] returns
    the free slot name with the smallest index, reports no eviction and
    leaves the list as it was. *)
Theorem allocate_slot_fills_lowest_gap
    (prefix : string) (max_c j : nat) (l : list entry) :
  (j < max_c)%nat ->
  in_use (slot_name prefix j) l = false ->
  (forall k, (k < j)%nat -> in_use (slot_name prefix k) l = true) ->
  allocate_slot prefix max_c l = (slot_name prefix j, None, l).
Proof.
  intros Hj Hfree Hused. unfold allocate_slot.
  rewrite (find_free_first prefix l max_c 0 j) by (auto with arith || (intros; apply Hused; lia)).
  reflexivity.
Qed.

Lemma allocate_slot_fills_lowest_gap_witness :
  allocate_slot "P" 5 [("P0", 1); ("P1", 1); ("P3", 1)]%Q
  = (slot_name "P" 2, None, [("P0", 1); ("P1", 1); ("P3", 1)]%Q).
Proof.
  apply allocate_slot_fills_lowest_gap.
  - lia.
  - reflexivity.
  - intros k Hk. destruct k as [|[|k]]; [reflexivity | reflexivity | lia].
Defined.

(** C9: when every slot name is in use but no entry starts with the
    prefix (an inconsistent pool), [allocate_slot] falls back to
    [prefix0], reports no eviction and leaves the list unchanged. *)
Theorem allocate_slot_inconsistent_fallback
    (prefix : string) (max_c : nat) (l : list entry) :
  (forall i, (i < max_c)%nat -> in_use (slot_name prefix i) l = true) ->
  Forall (unprefixed prefix) l ->
  allocate_slot prefix max_c l = (slot_name prefix 0, None, l).
Proof.
  intros Hall Hno. unfold allocate_slot.
  rewrite find_free_all_used by (intros k Hk; apply Hall; lia).
  rewrite pop_first_prefixed_none by assumption. reflexivity.
Qed.

Lemma allocate_slot_inconsistent_fallback_witness :
  allocate_slot "__click_pop_L_" 0 [("__click_pop_R_0", 1)]%Q
  = ("__click_pop_L_0", None, [("__click_pop_R_0", 1)]%Q).
Proof.
  apply (allocate_slot_inconsistent_fallback "__click_pop_L_" 0).
  - intros i Hi; lia.
  - repeat constructor.
Defined.

(** C10: the list passed to [allocate_slot] is unchanged whenever no
    eviction is reported; when one is reported, the returned slot name is
    the evicted name and exactly one entry with that name was removed,
    the rest of the list keeping its order. *)
Theorem allocate_slot_frame
    (prefix : string) (max_c : nat) (l l' : list entry)
    (s : string) (ev : option string) :
  allocate_slot prefix max_c l = (s, ev, l') ->
  (ev = None -> l' = l) /\
  (forall e, ev = Some e ->
     s = e /\ exists l1 t l2, l = l1 ++ (e, t) :: l2 /\ l' = l1 ++ l2).
Proof.
  unfold allocate_slot. intros H.
  destruct (find_free prefix 0 max_c l) as [c|].
  - injection H as <- <- <-. split; [reflexivity | discriminate].
  - destruct (pop_first_prefixed prefix l) as [[n rest]|] eqn:Hp.
    + injection H as <- <- <-. split; [discriminate|].
      intros e [= <-]. split; [reflexivity|].
      destruct (pop_first_prefixed_some prefix l rest n Hp)
        as (l1 & t & l2 & Hl & Hr & _ & _).
      exists l1, t, l2; auto.
    + injection H as <- <- <-. split; [reflexivity | discriminate].
Qed.

Lemma allocate_slot_frame_witness :
  let l := [("L0", 1); ("L1", 2)]%Q in
  l = l /\
  exists l1 t l2, l = l1 ++ ("L0", t) :: l2 /\ [("L1", 2%Q)] = l1 ++ l2.
Proof.
  simpl.
  destruct (allocate_slot_frame "L" 2 [("L0", 1); ("L1", 2)]%Q [("L1", 2%Q)]
              "L0" (Some "L0") eq_refl) as [_ H].
  split; [reflexivity|].
  exact (proj2 (H "L0" eq_refl)).
Defined.

(** ** Coordinate mapping *)

Lemma py_div_pos (a b : Q) : 0 < b -> py_div a b = Some (a / b).
Proof.
  intros Hb. unfold py_div.
  destruct (Qeq_bool b 0) eqn:E; [|reflexivity].
  apply Qeq_bool_iff in E. rewrite E in Hb. exfalso; exact (Qlt_irrefl 0 Hb).
Qed.

(** C2: with a capture transform supplied, each axis is mapped as
    [pos + (point - crop) * scale - diameter / 2], whatever the canvas
    and monitor sizes; the spec's example (crop 960/0, position 0/0,
    scale 1/1, diameter 80, point (1440, 540)) gives (440, 500). *)
Theorem map_coords_transform
    (x y canvas_w canvas_h monitor_w monitor_h size cl ct px py sx sy : Q) :
  map_coords x y canvas_w canvas_h monitor_w monitor_h size
    (mkKwargs cl ct px py (Some sx) (Some sy))
  = Some (px + (x - cl) * sx - size / 2, py + (y - ct) * sy - size / 2) /\
  exists ox oy,
    map_coords 1440 540 canvas_w canvas_h monitor_w monitor_h 80
      (mkKwargs 960 0 0 0 (Some 1) (Some 1)) = Some (ox, oy) /\
    ox == 440 /\ oy == 500.
Proof.
  split; [reflexivity|].
  eexists; eexists; split; [reflexivity|]. split; reflexivity.
Qed.

(** C7: without a transform and with positive monitor sizes, each axis
    is mapped as [point * (canvas / monitor) - diameter / 2]. *)
Theorem map_coords_proportional
    (x y canvas_w canvas_h monitor_w monitor_h size : Q) :
  0 < monitor_w -> 0 < monitor_h ->
  exists ox oy,
    map_coords x y canvas_w canvas_h monitor_w monitor_h size default_kwargs
    = Some (ox, oy) /\
    ox == x * (canvas_w / monitor_w) - size / 2 /\
    oy == y * (canvas_h / monitor_h) - size / 2.
Proof.
  intros Hw Hh. unfold map_coords; simpl.
  rewrite !py_div_pos by assumption.
  eexists; eexists; split; [reflexivity|]. split; ring.
Qed.

Lemma map_coords_proportional_witness :
  exists ox oy,
    map_coords 960 540 1920 1080 1920 1080 80 default_kwargs = Some (ox, oy) /\
    ox == 920 /\ oy == 500.
Proof.
  destruct (map_coords_proportional 960 540 1920 1080 1920 1080 80)
    as (ox & oy & Hm & Hx & Hy); [reflexivity | reflexivity |].
  exists ox, oy. split; [exact Hm|].
  split; [rewrite Hx | rewrite Hy]; reflexivity.
Defined.

(** C8: the transform [crop = (0, 0)], [pos = (0, 0)],
    [scale = canvas / monitor] gives exactly the proportional fallback. *)
Theorem map_coords_identity_transform
    (x y canvas_w canvas_h monitor_w monitor_h size : Q) :
  0 < monitor_w -> 0 < monitor_h ->
  map_coords x y canvas_w canvas_h monitor_w monitor_h size
    (mkKwargs 0 0 0 0 (Some (canvas_w / monitor_w)) (Some (canvas_h / monitor_h)))
  = map_coords x y canvas_w canvas_h monitor_w monitor_h size default_kwargs.
Proof.
  intros Hw Hh. unfold map_coords; simpl.
  rewrite !py_div_pos by assumption. reflexivity.
Qed.

Lemma map_coords_identity_transform_witness :
  map_coords 100 50 1280 720 1920 1080 40
    (mkKwargs 0 0 0 0 (Some (1280 / 1920)) (Some (720 / 1080)))
  = map_coords 100 50 1280 720 1920 1080 40 default_kwargs.
Proof. apply map_coords_identity_transform; reflexivity. Defined.

(** ** Display hit-testing *)

(** The bounds test of the spec: half-open on both axes. *)
Definition in_bounds (d : display) (x y : Q) : Prop :=
  d_x d <= x < d_x d + d_w d /\ d_y d <= y < d_y d + d_h d.

Lemma negb_Qle_bool (a b : Q) : negb (Qle_bool a b) = true <-> b < a.
Proof.
  rewrite negb_true_iff. split.
  - intros H. apply Qnot_le_lt. intros Hle. apply Qle_bool_iff in Hle. congruence.
  - intros H. destruct (Qle_bool a b) eqn:E; [|reflexivity].
    apply Qle_bool_iff in E. exfalso. exact (Qlt_not_le _ _ H E).
Qed.

Lemma contains_in_bounds (d : display) (x y : Q) :
  contains d x y = true <-> in_bounds d x y.
Proof.
  unfold contains, in_bounds. rewrite !andb_true_iff, !Qle_bool_iff, !negb_Qle_bool.
  tauto.
Qed.

Lemma find_display_some (x y : Q) (ds : list dref) (d : dref) :
  find_display_for_point x y ds = Some d <->
  exists l1 l2, ds = l1 ++ d :: l2 /\
    Forall (fun e => ~ in_bounds (snd e) x y) l1 /\ in_bounds (snd d) x y.
Proof.
  induction ds as [|e rest IH]; simpl.
  - split; [discriminate|]. intros (l1 & l2 & H & _). destruct l1; discriminate.
  - destruct (contains (snd e) x y) eqn:He.
    + split.
      * intros [= <-]. exists [], rest.
        split; [reflexivity|]. split; [constructor|].
        apply contains_in_bounds; exact He.
      * intros ([|e' l1] & l2 & Hds & Hl1 & Hd).
        -- injection Hds as -> _. reflexivity.
        -- injection Hds as -> _. inversion Hl1 as [|? ? Hn]; subst.
           exfalso; apply Hn, contains_in_bounds; exact He.
    + rewrite IH. split.
      * intros (l1 & l2 & -> & Hl1 & Hd). exists (e :: l1), l2.
        split; [reflexivity|]. split; [|exact Hd].
        constructor; [|exact Hl1].
        rewrite <- contains_in_bounds; congruence.
      * intros ([|e' l1] & l2 & Hds & Hl1 & Hd).
        -- injection Hds as -> _. apply contains_in_bounds in Hd. congruence.
        -- injection Hds as -> ->. inversion Hl1; subst. exists l1, l2; auto.
Qed.

Lemma find_display_none (x y : Q) (ds : list dref) :
  find_display_for_point x y ds = None <->
  Forall (fun e => ~ in_bounds (snd e) x y) ds.
Proof.
  induction ds as [|e rest IH]; simpl.
  - split; auto.
  - destruct (contains (snd e) x y) eqn:He.
    + split; [discriminate|]. intros Hf. inversion Hf as [|? ? Hn]; subst.
      exfalso; apply Hn, contains_in_bounds; exact He.
    + rewrite IH. split.
      * intros H. constructor; auto. rewrite <- contains_in_bounds; congruence.
      * intros H. inversion H; auto.
Qed.

(** C3: [find_display_for_point] returns the first display of the
    sequence whose half-open bounds contain the point, and no display
    exactly when none contains it (in particular for the empty sequence). *)
Theorem find_display_for_point_first_match (x y : Q) (ds : list dref) :
  (forall d, find_display_for_point x y ds = Some d <->
     exists l1 l2, ds = l1 ++ d :: l2 /\
       Forall (fun e => ~ in_bounds (snd e) x y) l1 /\ in_bounds (snd d) x y) /\
  (find_display_for_point x y ds = None <->
     Forall (fun e => ~ in_bounds (snd e) x y) ds) /\
  find_display_for_point x y [] = None.
Proof.
  split; [intros d; apply find_display_some|].
  split; [apply find_display_none | reflexivity].
Qed.

(** The spec's boundary cases for a display at (100, 50) of size 30x20. *)
Example find_display_boundaries :
  let d := (0%nat, mkDisplay 100 50 30 20 None) in
  find_display_for_point 100 50 [d] = Some d /\
  find_display_for_point 129 69 [d] = Some d /\
  find_display_for_point 130 50 [d] = None /\
  find_display_for_point 99 50 [d] = None.
Proof. repeat split; reflexivity. Qed.

(** ** Expiry *)

Definition expired_at (now : Q) (e : entry) : bool := Qle_bool (snd e) now.

Lemma expire_loop_filter (l : list entry) (now : Q) (sa : list entry) (en : list string) :
  expire_loop l now sa en =
  (sa ++ filter (fun e => negb (expired_at now e)) l,
   en ++ map fst (filter (expired_at now) l)).
Proof.
  revert sa en; induction l as [|[name t] rest IH]; intros sa en; simpl.
  - rewrite !app_nil_r; reflexivity.
  - unfold expired_at in *; simpl.
    destruct (Qle_bool t now); simpl; rewrite IH, <- !app_assoc; reflexivity.
Qed.

(** C6: [expire_circles] splits the list into the entries still live and
    the names of the expired ones, each in input order; an entry is
    expired exactly when [expire_at <= now], so an entry expiring at 10 is
    expired at [now = 10] and live at every [now < 10]. *)
Theorem expire_circles_partition (l : list entry) (now : Q) :
  expire_circles l now =
    (filter (fun e => negb (expired_at now e)) l,
     map fst (filter (expired_at now) l)) /\
  (forall e, expired_at now e = true <-> snd e <= now) /\
  (forall e, In e l ->
     (In e (fst (expire_circles l now)) <-> expired_at now e = false) /\
     (expired_at now e = true -> In (fst e) (snd (expire_circles l now)))) /\
  (forall n : string, expire_circles [(n, 10)] 10 = ([], [n])) /\
  (forall (n : string) (t : Q), t < 10 -> expire_circles [(n, 10)] t = ([(n, 10)], [])).
Proof.
  split; [apply expire_loop_filter|].
  split; [intros e; apply Qle_bool_iff|].
  split.
  { intros e Hin. unfold expire_circles; rewrite expire_loop_filter; simpl.
    split.
    - rewrite filter_In, negb_true_iff. tauto.
    - intros He. apply in_map, filter_In; auto. }
  split; [reflexivity|].
  intros n t Ht. unfold expire_circles; simpl.
  destruct (Qle_bool 10 t) eqn:E; [|reflexivity].
  apply Qle_bool_iff in E. exfalso. exact (Qlt_not_le _ _ Ht E).
Qed.


(** ** Click router *)

(** C4: with more than one display known and a captured display
    designated, a click whose hit-tested display is not that display
    object (or that hits no display) is discarded: no request is issued
    and [_active_clicks] is left as it was.  With exactly one display
    known, hit-testing is skipped and the click proceeds, captured
    display or not; with no captured display, no click is discarded. *)
Theorem spawn_circle_discard_rule
    (env : router_env) (active : list entry) (x y : Q) (is_left : bool) (t : Q) :
  (forall c, (1 < length (all_displays env))%nat ->
     captured_display env = Some c ->
     same_object (find_display_for_point x y (all_displays env)) (Some c) = false ->
     spawn_circle env active x y is_left t = ([], active)) /\
  (length (all_displays env) = 1%nat ->
     route_click env x y = Proceed None /\
     spawn_circle env active x y is_left t = place_circle env active None x y is_left t) /\
  (captured_display env = None -> route_click env x y <> Discard).
Proof.
  split; [|split].
  - intros c Hlen Hc Hdiff. unfold spawn_circle, route_click.
    apply PeanoNat.Nat.ltb_lt in Hlen. rewrite Hlen, Hc, Hdiff. reflexivity.
  - intros Hlen. unfold spawn_circle, route_click. rewrite Hlen. split; reflexivity.
  - intros Hc. unfold route_click. rewrite Hc.
    destruct (Nat.ltb 1 (length (all_displays env))); discriminate.
Qed.

Definition two_displays : list dref :=
  [(0%nat, mkDisplay 0 0 1920 1080 (Some 1));
   (1%nat, mkDisplay 1920 0 1920 1080 (Some 1))].

Definition example_env (ds : list dref) (cap : option dref) : router_env :=
  mkEnv ds cap 1 1920 1080 5 80 1920 1080 None.

Lemma spawn_circle_discard_rule_witness :
  spawn_circle (example_env two_displays (Some (1%nat, mkDisplay 1920 0 1920 1080 (Some 1))))
    [] 500 500 true 3 = ([], []) /\
  route_click (example_env [(0%nat, mkDisplay 0 0 1920 1080 None)]
                 (Some (7%nat, mkDisplay 1920 0 1920 1080 None))) 5000 5000 = Proceed None /\
  route_click (example_env two_displays None) 5000 5000 <> Discard.
Proof.
  split; [|split].
  - apply (proj1 (spawn_circle_discard_rule _ [] 500 500 true 3)
             (1%nat, mkDisplay 1920 0 1920 1080 (Some 1)));
      [simpl; lia | reflexivity | reflexivity].
  - apply (proj1 (proj2 (spawn_circle_discard_rule
             (example_env [(0%nat, mkDisplay 0 0 1920 1080 None)]
                (Some (7%nat, mkDisplay 1920 0 1920 1080 None))) [] 5000 5000 true 3))).
    reflexivity.
  - apply (proj2 (proj2 (spawn_circle_discard_rule
             (example_env two_displays None) [] 5000 5000 true 3))).
    reflexivity.
Defined.

(** A kept click on the captured display consumes a slot and shows the
    marker at display-local coordinates. *)
Example spawn_circle_kept_example :
  let r := spawn_circle
             (example_env two_displays (Some (1%nat, mkDisplay 1920 0 1920 1080 (Some 1))))
             [] 2880 540 true 3 in
  match fst r with
  | [Show n ox oy sz] => n = "__click_pop_L_0" /\ ox == 920 /\ oy == 500 /\ sz == 80
  | _ => False
  end /\ snd r = [("__click_pop_L_0", 3)].
Proof. vm_compute. repeat split; reflexivity. Qed.

(* ================================================================== *)
(** * Further properties of the code *)

(** ** The active-click pool across spawns and ticks *)

Section PoolInvariant.
Local Open Scope nat_scope.
Local Open Scope list_scope.

Definition names (l : list entry) : list string := map fst l.

Definition L_prefix : string := "__click_pop_L_".
Definition R_prefix : string := "__click_pop_R_".

Definition button_prefix (is_left : bool) : string :=
  if is_left then L_prefix else R_prefix.

(** Entries whose name carries [p] are slot names of [p] below [cap]. *)
Definition pool_ok (p : string) (cap : nat) (l : list entry) : Prop :=
  forall e, In e l -> String.prefix p (fst e) = true ->
  exists i, i < cap /\ fst e = slot_name p i.

(** Every entry belongs to one of the two button pools. *)
Definition owned (l : list entry) : Prop :=
  Forall (fun e => String.prefix L_prefix (fst e) = true \/
                   String.prefix R_prefix (fst e) = true) l.

Definition pool_inv (cap : nat) (l : list entry) : Prop :=
  NoDup (names l) /\ pool_ok L_prefix cap l /\ pool_ok R_prefix cap l /\ owned l.

Lemma in_use_false (c : string) (l : list entry) :
  in_use c l = false -> ~ In c (names l).
Proof.
  unfold in_use, names. intros H Hin.
  apply in_map_iff in Hin as [e [<- He]].
  assert (existsb (fun e' => String.eqb (fst e') (fst e)) l = true) as Ht
    by (apply existsb_exists; exists e; split; [exact He | apply String.eqb_refl]).
  congruence.
Qed.

Lemma find_free_some (p : string) (l : list entry) (fuel i : nat) (c : string) :
  find_free p i fuel l = Some c ->
  in_use c l = false /\ exists j, i <= j < i + fuel /\ c = slot_name p j.
Proof.
  revert i; induction fuel as [|fuel IH]; intros i H; simpl in H; [discriminate|].
  destruct (in_use (slot_name p i) l) eqn:E; simpl in H.
  - destruct (IH (S i) H) as [Hf (j & Hj & ->)]. split; [exact Hf|].
    exists j; split; [lia | reflexivity].
  - injection H as <-. split; [exact E|]. exists i; split; [lia | reflexivity].
Qed.

Lemma find_free_none (p : string) (l : list entry) (fuel i : nat) :
  find_free p i fuel l = None ->
  forall k, i <= k < i + fuel -> in_use (slot_name p k) l = true.
Proof.
  revert i; induction fuel as [|fuel IH]; intros i H k Hk; [lia|].
  simpl in H. destruct (in_use (slot_name p i) l) eqn:E; simpl in H; [|discriminate].
  destruct (PeanoNat.Nat.eq_dec k i) as [->|Hne]; [exact E|].
  apply (IH (S i) H); lia.
Qed.

Lemma pop_first_prefixed_none_inv (p : string) (l : list entry) :
  pop_first_prefixed p l = None -> Forall (unprefixed p) l.
Proof.
  induction l as [|[n t] rest IH]; simpl; intros H; [constructor|].
  destruct (String.prefix p n) eqn:Hn; [discriminate|].
  destruct (pop_first_prefixed p rest) as [[m r]|]; [discriminate|].
  constructor; [exact Hn | exact (IH eq_refl)].
Qed.

(** The three outcomes of [allocate_slot]. *)
Lemma allocate_slot_cases (p : string) (cap : nat) (l l' : list entry)
    (s : string) (ev : option string) :
  allocate_slot p cap l = (s, ev, l') ->
  (ev = None /\ l' = l /\ ~ In s (names l) /\
     ((exists j, j < cap /\ s = slot_name p j) \/ (cap = 0 /\ s = slot_name p 0))) \/
  (ev = Some s /\ String.prefix p s = true /\
     exists l1 t l2, l = l1 ++ (s, t) :: l2 /\ l' = l1 ++ l2).
Proof.
  unfold allocate_slot. intros H.
  destruct (find_free p 0 cap l) as [c|] eqn:Hf.
  - injection H as <- <- <-. left.
    destruct (find_free_some p l cap 0 c Hf) as [Hu (j & Hj & ->)].
    split; [reflexivity|]. split; [reflexivity|]. split; [exact (in_use_false _ _ Hu)|].
    left; exists j; split; [lia | reflexivity].
  - destruct (pop_first_prefixed p l) as [[n rest]|] eqn:Hp.
    + injection H as <- <- <-. right. split; [reflexivity|].
      destruct (pop_first_prefixed_some p l rest n Hp) as (l1 & t & l2 & Hl & Hr & Hn & _).
      split; [exact Hn|]. exists l1, t, l2; auto.
    + injection H as <- <- <-. left.
      pose proof (pop_first_prefixed_none_inv p l Hp) as Hno.
      assert (cap = 0) as Hc.
      { apply (inconsistent_pool_capacity p cap l); [|exact Hno].
        intros i Hi. apply (find_free_none p l cap 0 Hf); lia. }
      split; [reflexivity|]. split; [reflexivity|]. split.
      * intros Hin. unfold names in Hin. apply in_map_iff in Hin as [e [He Hin]].
        rewrite Forall_forall in Hno. specialize (Hno e Hin).
        unfold unprefixed in Hno. rewrite He, slot_name_prefixed in Hno. discriminate.
      * right; split; [exact Hc | reflexivity].
Qed.

Lemma names_app (l1 l2 : list entry) : names (l1 ++ l2) = names l1 ++ names l2.
Proof. apply map_app. Qed.

Lemma nodup_snoc (xs : list string) (x : string) :
  NoDup xs -> ~ In x xs -> NoDup (xs ++ [x]).
Proof.
  induction 1 as [|y ys Hy Hys IH]; simpl; intros Hx.
  - constructor; [intros [] | constructor].
  - constructor.
    + rewrite in_app_iff. intros [H | [H | []]]; [exact (Hy H) | apply Hx; left; exact (eq_sym H)].
    + apply IH. intros H; apply Hx; right; exact H.
Qed.

Lemma allocate_slot_nodup (p : string) (cap : nat) (l l' : list entry)
    (s : string) (ev : option string) :
  NoDup (names l) -> allocate_slot p cap l = (s, ev, l') ->
  NoDup (names l') /\ ~ In s (names l').
Proof.
  intros Hnd Ha. destruct (allocate_slot_cases p cap l l' s ev Ha)
    as [(_ & -> & Hs & _) | (_ & _ & l1 & t & l2 & -> & ->)].
  - split; assumption.
  - unfold names in *. rewrite map_app in *. simpl in Hnd.
    exact (NoDup_remove _ _ _ Hnd).
Qed.

(** What [place_circle] does to the pool: the list left by
    [allocate_slot], with the new entry appended unless [map_coords]
    raised. *)
Lemma place_circle_active (env : router_env) (active : list entry)
    (d : option dref) (x y : Q) (b : bool) (t : Q) :
  exists s ev l',
    allocate_slot (button_prefix b) (max_circles env) active = (s, ev, l') /\
    (snd (place_circle env active d x y b t) = l' \/
     snd (place_circle env active d x y b t) = l' ++ [(s, t)]).
Proof.
  unfold place_circle, button_prefix, L_prefix, R_prefix.
  destruct d as [[i dd]|];
  destruct (allocate_slot (if b then "__click_pop_L_" else "__click_pop_R_")
              (max_circles env) active) as [[s ev] l'] eqn:Ha;
  exists s, ev, l'; (split; [reflexivity|]);
  match goal with |- context [map_coords ?a ?b ?c ?d ?e ?f ?g ?h] =>
    destruct (map_coords a b c d e f g h) as [[ox oy]|] end;
  simpl; auto.
Qed.

(** Any property of the pool kept by every spawn is kept by draining a
    queue of clicks. *)
Lemma drain_clicks_preserves (P : list entry -> Prop) (env : router_env)
    (dur : Q) (queue : list click) (active : list entry) :
  (forall a x y b t, P a -> P (snd (spawn_circle env a x y b t))) ->
  P active -> P (snd (drain_clicks env dur queue active)).
Proof.
  intros Hstep. revert active.
  induction queue as [|[[[x y] b] t] rest IH]; intros active Ha; simpl; [exact Ha|].
  destruct (spawn_circle env active x y b (t + dur)%Q) as [e1 a1] eqn:Hs.
  destruct (drain_clicks env dur rest a1) as [e2 a2] eqn:Hd.
  simpl. specialize (IH a1). rewrite Hd in IH. apply IH.
  specialize (Hstep active x y b (t + dur)%Q Ha). rewrite Hs in Hstep. exact Hstep.
Qed.

Lemma nodup_names_filter (f : entry -> bool) (l : list entry) :
  NoDup (names l) -> NoDup (names (filter f l)).
Proof.
  induction l as [|e rest IH]; simpl; intros H; [constructor|].
  inversion H as [|? ? Hn Hr]; subst.
  destruct (f e); simpl; [|exact (IH Hr)].
  constructor; [|exact (IH Hr)].
  intros Hin. apply Hn. unfold names in *. apply in_map_iff in Hin as [e' [Heq Hin]].
  apply filter_In in Hin as [Hin _]. rewrite <- Heq. apply in_map; exact Hin.
Qed.

End PoolInvariant.






Lemma poll_clicks_snd (env : router_env) (dur now : Q) (queue : list click)
    (active : list entry) :
  snd (poll_clicks env dur now queue active) =
  filter (fun e => negb (expired_at now e))
         (snd (drain_clicks env (dur / 1000) queue active)).
Proof.
  unfold poll_clicks.
  destruct (drain_clicks env (dur / 1000) queue active) as [eff a1].
  unfold expire_circles. rewrite expire_loop_filter. reflexivity.
Qed.

(** [_spawn_circle] never puts a second entry with the same source name
    into [_active_clicks], whatever [max_circles] is. *)
Theorem spawn_circle_names_unique (env : router_env) (active : list entry)
    (x y : Q) (is_left : bool) (t : Q) :
  NoDup (names active) ->
  NoDup (names (snd (spawn_circle env active x y is_left t))).
Proof.
  intros Hnd. unfold spawn_circle.
  destruct (route_click env x y) as [|d]; [exact Hnd|].
  destruct (place_circle_active env active d x y is_left t) as (s & ev & l' & Ha & Hr).
  destruct (allocate_slot_nodup _ _ _ _ _ _ Hnd Ha) as [Hnd' Hs].
  destruct Hr as [-> | ->]; [exact Hnd'|].
  rewrite names_app. apply nodup_snoc; assumption.
Qed.

Lemma spawn_circle_names_unique_witness :
  NoDup (names (snd (spawn_circle (example_env two_displays None)
    [("__click_pop_L_0", 1); ("__click_pop_L_1", 2)]%Q 10 10 true 3))).
Proof.
  apply spawn_circle_names_unique.
  unfold names; simpl. constructor; [simpl; intros [H | []]; discriminate|].
  constructor; [intros [] | constructor].
Defined.

(** A polling tick (drain every queued click, then expire) keeps the
    source names in [_active_clicks] pairwise distinct. *)
Theorem poll_clicks_names_unique (env : router_env) (duration_ms now : Q)
    (queue : list click) (active : list entry) :
  NoDup (names active) ->
  NoDup (names (snd (poll_clicks env duration_ms now queue active))).
Proof.
  intros Hnd. rewrite poll_clicks_snd. apply nodup_names_filter.
  apply (drain_clicks_preserves (fun a => NoDup (names a))); [|exact Hnd].
  intros a x y b t Ha. apply spawn_circle_names_unique; exact Ha.
Qed.

Lemma poll_clicks_names_unique_witness :
  NoDup (names (snd (poll_clicks (example_env two_displays None) 350 0
    [(10, 10, true, 1); (20, 20, true, 1); (30, 30, false, 1)]%Q []))).
Proof. apply poll_clicks_names_unique. constructor. Defined.



(** Under the pool invariant each button holds at most [max_circles]
    live entries. *)
Theorem pool_inv_bounded (cap : nat) (l : list entry) :
  pool_inv cap l ->
  (length (filter (fun e => String.prefix L_prefix (fst e)) l) <= cap)%nat /\
  (length (filter (fun e => String.prefix R_prefix (fst e)) l) <= cap)%nat.
Proof.
  intros (Hnd & HL & HR & _).
  assert (forall p, pool_ok p cap l ->
            (length (filter (fun e => String.prefix p (fst e)) l) <= cap)%nat) as Hb.
  { intros p Hok.
    set (f := fun e : entry => String.prefix p (fst e)).
    rewrite <- (length_map fst), <- (length_seq cap 0), <- (length_map (slot_name p)).
    apply NoDup_incl_length; [exact (nodup_names_filter f l Hnd)|].
    intros n Hn. apply in_map_iff in Hn as [e [<- He]].
    apply filter_In in He as [He Hf].
    destruct (Hok e He Hf) as (i & Hi & ->).
    apply in_map, in_seq; lia. }
  split; apply Hb; assumption.
Qed.

Lemma pool_inv_bounded_witness :
  (length (filter (fun e => String.prefix L_prefix (fst e))
     [("__click_pop_L_0", 1); ("__click_pop_R_0", 1)]%Q) <= 1)%nat /\
  (length (filter (fun e => String.prefix R_prefix (fst e))
     [("__click_pop_L_0", 1); ("__click_pop_R_0", 1)]%Q) <= 1)%nat.
Proof.
  apply pool_inv_bounded.
  split; [unfold names; simpl; constructor; [intros [H | []]; discriminate | constructor; [intros [] | constructor]]|].
  split; [intros e [<- | [<- | []]] H; [exists 0%nat; split; [lia | reflexivity] | discriminate]|].
  split; [intros e [<- | [<- | []]] H; [discriminate | exists 0%nat; split; [lia | reflexivity]]|].
  constructor; [left; reflexivity | constructor; [right; reflexivity | constructor]].
Defined.



(** ** Capture transform *)

Lemma py_max_ge1 (a : Q) : 1 <= py_max a 1.
Proof.
  unfold py_max. destruct (Qle_bool 1 a) eqn:E; [apply Qle_bool_iff; exact E|].
  apply Qle_refl.
Qed.

Lemma vis_w_pos (it : capture_item) : 0 < vis_w it.
Proof. pose proof (py_max_ge1 (py_or (source_width it) 1 - item_crop_left it - item_crop_right it)). unfold vis_w. lra. Qed.

Lemma vis_h_pos (it : capture_item) : 0 < vis_h it.
Proof. pose proof (py_max_ge1 (py_or (source_height it) 1 - item_crop_top it - item_crop_bottom it)). unfold vis_h. lra. Qed.



(** For an item with bounds, the offsets are always half the slack
    between the bounds and the scaled visible size. *)
Lemma bounds_scale_shape (it : capture_item) :
  exists sx sy, bounds_scale it =
    Returned (sx, sy, (item_bounds_x it - vis_w it * sx) / 2,
                      (item_bounds_y it - vis_h it * sy) / 2).
Proof.
  unfold bounds_scale. cbv zeta.
  rewrite (py_div_pos (item_bounds_x it) (vis_w it) (vis_w_pos it)),
          (py_div_pos (item_bounds_y it) (vis_h it) (vis_h_pos it)).
  destruct (item_bounds_type it); eexists; eexists; reflexivity.
Qed.

(** [_get_capture_transform] never raises [ZeroDivisionError]: the
    visible sizes it divides by are clamped to at least 1. *)
Theorem get_capture_transform_no_zero_division (name : string) (item : option capture_item) :
  get_capture_transform name item <> Raised_ZeroDivisionError.
Proof.
  unfold get_capture_transform.
  destruct (String.eqb name ""); [discriminate|].
  destruct item as [it|]; [|discriminate].
  destruct (get_filter_crop (filters it)) as [[[fl ft] fr] fb].
  destruct (bounds_scale_shape it) as (sx & sy & Hb).
  destruct (item_bounds_type it); try discriminate; rewrite Hb; discriminate.
Qed.















(** ** Resolving the captured display *)

Lemma find_display_in (x y : Q) (ds : list dref) (d : dref) :
  find_display_for_point x y ds = Some d -> In d ds /\ contains (snd d) x y = true.
Proof.
  induction ds as [|e rest IH]; simpl; [discriminate|].
  destruct (contains (snd e) x y) eqn:He.
  - intros [= <-]. split; [left; reflexivity | exact He].
  - intros H. destruct (IH H) as [Hin Hc]. split; [right; exact Hin | exact Hc].
Qed.

Lemma find_display_exists (x y : Q) (ds : list dref) (c : dref) :
  In c ds -> contains (snd c) x y = true -> exists d, find_display_for_point x y ds = Some d.
Proof.
  induction ds as [|e rest IH]; simpl; [intros []|].
  intros [-> | Hin] Hc.
  - rewrite Hc. eexists; reflexivity.
  - destruct (contains (snd e) x y); [eexists; reflexivity | exact (IH Hin Hc)].
Qed.

Lemma pick_index_in (ds : list dref) (idx : Z) (d : dref) :
  pick_index ds idx = Some d -> In d ds.
Proof.
  unfold pick_index. destruct (Z.leb 0 idx && Z.ltb idx (Z.of_nat (length ds)))%bool;
    [apply nth_error_In | discriminate].
Qed.

Lemma match_uuid_in (uuid_of : dref -> uuid_result) (u : string) (ds : list dref) (d : dref) :
  match_uuid uuid_of u ds = Some d -> In d ds.
Proof.
  induction ds as [|e rest IH]; simpl; [discriminate|].
  destruct (uuid_of e) as [s| |]; [|intros H; right; exact (IH H) | discriminate].
  destruct (String.eqb (upper (strip_braces s)) u); [intros [= <-]; left; reflexivity|].
  intros H; right; exact (IH H).
Qed.

(** [_resolve_captured_display] only ever designates one of the display
    objects of [_all_displays] (so the router's identity test can match
    it), and designates none when no capture source name is configured
    or no display is known. *)
Theorem resolve_captured_display_member (display_id : dref -> Z)
    (uuid_of : dref -> uuid_result) (plat : platform) (name : string)
    (ds : list dref) (source : option capture_source) :
  (forall d, resolve_captured_display display_id uuid_of plat name ds source = Some d ->
     In d ds) /\
  resolve_captured_display display_id uuid_of plat "" ds source = None /\
  resolve_captured_display display_id uuid_of plat name [] source = None.
Proof.
  split; [|split; [reflexivity | unfold resolve_captured_display; rewrite orb_true_r; reflexivity]].
  intros d. unfold resolve_captured_display.
  destruct (String.eqb name "" || Nat.eqb (length ds) 0)%bool; [discriminate|].
  destruct source as [src|]; [|discriminate].
  destruct plat; [| apply pick_index_in | apply pick_index_in].
  destruct (String.prefix "screen_capture" (src_id src));
    [|destruct (String.prefix "display_capture" (src_id src)); [apply pick_index_in | discriminate]].
  unfold resolve_screen_capture.
  destruct (if String.eqb (set_display_uuid src) "" then None
            else match_uuid uuid_of (upper (strip_braces (set_display_uuid src))) ds)
    as [d1|] eqn:Hu.
  { intros [= <-]. destruct (String.eqb (set_display_uuid src) ""); [discriminate|].
    exact (match_uuid_in _ _ _ _ Hu). }
  destruct (if Z.eqb (set_display src) 0 then None
            else find (fun d => Z.eqb (display_id d) (set_display src)) ds)
    as [d2|] eqn:Hi.
  { intros [= <-]. destruct (Z.eqb (set_display src) 0); [discriminate|].
    exact (proj1 (find_some _ _ Hi)). }
  destruct (negb (Z.eqb (out_width src) 0) && negb (Z.eqb (out_height src) 0))%bool;
    [|discriminate].
  intros H. exact (proj1 (find_some _ _ H)).
Qed.

(** A click that lands inside the resolved captured display, and inside
    no other display object, is never discarded by the router. *)
Theorem click_on_captured_display_kept (display_id : dref -> Z)
    (uuid_of : dref -> uuid_result) (plat : platform) (name : string)
    (source : option capture_source) (env : router_env) (c : dref) (x y : Q) :
  captured_display env = Some c ->
  resolve_captured_display display_id uuid_of plat name (all_displays env) source = Some c ->
  contains (snd c) x y = true ->
  (forall d, In d (all_displays env) -> contains (snd d) x y = true -> fst d = fst c) ->
  route_click env x y <> Discard.
Proof.
  intros Hcap Hres Hc Honly.
  pose proof (proj1 (resolve_captured_display_member display_id uuid_of plat name
                       (all_displays env) source) c Hres) as Hin.
  destruct (find_display_exists x y _ c Hin Hc) as [d Hd].
  destruct (find_display_in x y _ d Hd) as [Hdin Hdc].
  pose proof (Honly d Hdin Hdc) as Hid.
  unfold route_click. rewrite Hcap, Hd.
  destruct (Nat.ltb 1 (length (all_displays env))); [|discriminate].
  destruct d as [i dd], c as [j cc]. simpl in Hid |- *. subst j.
  rewrite PeanoNat.Nat.eqb_refl. discriminate.
Qed.

Definition win_source (monitor : Z) : capture_source :=
  mkSource "monitor_capture" 0 "" monitor 0 1920 1080.

Lemma click_on_captured_display_kept_witness :
  route_click (example_env two_displays (Some (1%nat, mkDisplay 1920 0 1920 1080 (Some 1))))
    2000 100 <> Discard.
Proof.
  apply (click_on_captured_display_kept (fun _ => 0%Z) (fun _ => UuidNone) Win32
           "Display Capture" (Some (win_source 1))
           _ (1%nat, mkDisplay 1920 0 1920 1080 (Some 1))).
  - reflexivity.
  - reflexivity.
  - reflexivity.
  - intros d [<- | [<- | []]] H; [discriminate | reflexivity].
Defined.
